(** * The background bridge of the preload script

    A shallow embedding of [src/background/preload.ts]: the five functions
    of the [api] object exposed to the renderer, the part of Electron's
    [ipcRenderer] they use ([send] and [on]), the promises they create and
    the event loop that delivers the replies of the privileged process. *)

From Stdlib Require Import ZArith.
From Stdlib Require Import Floats.SpecFloat.
From stdpp Require Import base option list gmap strings.

Set Warnings "-register-all".

(** ** JavaScript values

    Everything that crosses the process boundary went through the structured
    clone algorithm, so payloads are plain data: no function and hence no
    thenable is among them. Numbers are IEEE 754 doubles. *)

Inductive JsValue : Type :=
  | JUndefined
  | JNull
  | JBool (b : bool)
  | JNumber (x : spec_float)
  | JBigInt (z : Z)
  | JString (s : string)
  | JArray (items : list JsValue)
  | JObject (props : list (string * JsValue)).

(** [ToBoolean], the test of [if (error)]. *)
Definition ToBoolean (v : JsValue) : bool :=
  match v with
  | JUndefined | JNull => false
  | JBool b => b
  | JNumber (S754_zero _) | JNumber S754_nan => false
  | JNumber _ => true
  | JBigInt z => negb (Z.eqb z 0)
  | JString s => negb (String.eqb s EmptyString)
  | JArray _ | JObject _ => true
  end.

(** [v != null]: loose inequality with [null] is false for [null] and
    [undefined] only. *)
Definition loose_ne_null (v : JsValue) : bool :=
  match v with
  | JUndefined | JNull => false
  | _ => true
  end.

(** A payload is present when it is neither [null] nor [undefined]. *)
Definition is_present (v : JsValue) : bool := loose_ne_null v.

(** The [i]-th actual argument of a call; a missing one reads [undefined]. *)
Definition argument (i : nat) (args : list JsValue) : JsValue :=
  nth i args JUndefined.

(** The payloads of a reply, as the privileged process meant them: the
    message carries the result, then the error, then possibly more; what it
    leaves out is [undefined]. *)
Inductive reply_payloads : list JsValue → JsValue → JsValue → Prop :=
  | reply_empty : reply_payloads [] JUndefined JUndefined
  | reply_result_only result : reply_payloads [result] result JUndefined
  | reply_result_error result error rest :
      reply_payloads (result :: error :: rest) result error.

(** ** Channels

    [Channel] is the enumeration imported from [./constants]; the table
    [REPLY_BY_CHANNEL] of the same module is a parameter of the development
    (see the section below). *)

Inductive Channel : Type :=
  | ENABLE_AUTOSTART
  | DISABLE_AUTOSTART
  | GET_AUTOSTART_STATUS
  | GET_USER_SETTINGS
  | SAVE_USER_SETTINGS.

(** A registry to run the bridge on concrete inputs; the development does
    not depend on the names it picks. *)
Definition example_REPLY_BY_CHANNEL (c : Channel) : string :=
  match c with
  | ENABLE_AUTOSTART => "enable-autostart-reply"
  | DISABLE_AUTOSTART => "disable-autostart-reply"
  | GET_AUTOSTART_STATUS => "get-autostart-status-reply"
  | GET_USER_SETTINGS => "get-user-settings-reply"
  | SAVE_USER_SETTINGS => "save-user-settings-reply"
  end%string.

(** ** Promises *)

Inductive PromiseState : Type :=
  | Pending
  | Fulfilled (value : JsValue)
  | Rejected (reason : JsValue).

Definition is_settled (s : PromiseState) : bool :=
  match s with
  | Pending => false
  | _ => true
  end.

(** A promise of the store. [adopts = Some q] records that the promise was
    resolved with the promise [q]: its own resolving functions are spent and
    it takes the state of [q] once [q] has settled. *)
Record Promise : Type := mkPromise {
  state : PromiseState;
  adopts : option nat;
}.

Definition fresh_promise : Promise :=
  {| state := Pending; adopts := None |}.

(** The three closures handed to [ipcRenderer.on]. Each captures the
    [resolve] and [reject] functions of one promise, named by its index in
    the store. *)
Inductive Listener : Type :=
  | autostartTaskExist_listener (p : nat)
  | getUserSettings_listener (p : nat)
  | saveUserSettings_listener (p : nat).

Definition listener_promise (l : Listener) : nat :=
  match l with
  | autostartTaskExist_listener p => p
  | getUserSettings_listener p => p
  | saveUserSettings_listener p => p
  end.

(** ** The renderer process *)

Record Renderer : Type := mkRenderer {
  sent : list (Channel * list JsValue);
  listeners : gmap string (list Listener);
  promises : list Promise;
}.

Definition init : Renderer :=
  {| sent := []; listeners := ∅; promises := [] |}.

Definition set_promises (ps : list Promise) (w : Renderer) : Renderer :=
  {| sent := sent w; listeners := listeners w; promises := ps |}.

Definition promise_state (w : Renderer) (p : nat) : option PromiseState :=
  state <$> promises w !! p.

Definition listeners_on (c : string) (w : Renderer) : list Listener :=
  default [] (listeners w !! c).

(** The settling functions of a promise: they act once, on a pending promise
    that was not resolved with another promise, and are inert afterwards. *)
Definition settle (p : nat) (s : PromiseState) (ps : list Promise)
  : list Promise :=
  match ps !! p with
  | Some {| state := Pending; adopts := None |} =>
      <[p := {| state := s; adopts := None |}]> ps
  | _ => ps
  end.

Definition resolve (p : nat) (v : JsValue) (w : Renderer) : Renderer :=
  set_promises (settle p (Fulfilled v) (promises w)) w.

Definition reject (p : nat) (e : JsValue) (w : Renderer) : Renderer :=
  set_promises (settle p (Rejected e) (promises w)) w.

(** ** Computations of the renderer: state and exceptions *)

Inductive Completion (A : Type) : Type :=
  | Return (a : A)
  | Throw (e : JsValue).
Arguments Return {A} a.
Arguments Throw {A} e.

Definition M (A : Type) : Type := Renderer → Completion A * Renderer.

Definition M_ret {A} (a : A) : M A := λ w, (Return a, w).

Definition M_bind {A B} (m : M A) (k : A → M B) : M B :=
  λ w, match m w with
       | (Return a, w') => k a w'
       | (Throw e, w') => (Throw e, w')
       end.

Notation "m ;; k" := (M_bind m (λ _, k))
  (at level 100, k at level 200, right associativity).

(** [ipcRenderer.send(channel, ...args)]: queue one message for the
    privileged process. The arguments are cloneable, so it does not throw. *)
Definition ipcRenderer_send (c : Channel) (args : list JsValue) : M unit :=
  λ w, (Return (),
        {| sent := sent w ++ [(c, args)];
           listeners := listeners w;
           promises := promises w |}).

(** [ipcRenderer.on(channel, listener)]: append [listener] to the listeners
    of [channel]. *)
Definition ipcRenderer_on (c : string) (l : Listener) : M unit :=
  λ w, (Return (),
        {| sent := sent w;
           listeners := <[c := listeners_on c w ++ [l]]> (listeners w);
           promises := promises w |}).

(** [new Promise(executor)]: allocate a pending promise, run the executor
    at once; an executor that throws rejects the promise. *)
Definition new_Promise (executor : nat → M unit) : M nat :=
  λ w,
    let p := length (promises w) in
    match executor p (set_promises (promises w ++ [fresh_promise]) w) with
    | (Return _, w') => (Return p, w')
    | (Throw e, w') => (Return p, reject p e w')
    end.

(** Resolving a promise with another promise locks it onto that promise. *)
Definition resolve_with_promise (p q : nat) (ps : list Promise)
  : list Promise :=
  match ps !! p with
  | Some {| state := Pending; adopts := None |} =>
      <[p := {| state := Pending; adopts := Some q |}]> ps
  | _ => ps
  end.

(** An [async] function whose body returns a promise: the call allocates the
    promise it returns, runs the body, and resolves the former with the
    promise the body returned. *)
Definition async_function (body : M nat) : M nat :=
  λ w,
    let p := length (promises w) in
    match body (set_promises (promises w ++ [fresh_promise]) w) with
    | (Return q, w') =>
        (Return p, set_promises (resolve_with_promise p q (promises w')) w')
    | (Throw e, w') => (Return p, reject p e w')
    end.

(** The body shared by the three listeners, [(e, result, error) => ...]:
    what it does to the promise it captured. *)
Definition listener_outcome (l : Listener) (args : list JsValue)
  : PromiseState :=
  let result := argument 0 args in
  let error := argument 1 args in
  if ToBoolean error then Rejected error
  else match l with
       | autostartTaskExist_listener _ => Fulfilled (JBool (loose_ne_null result))
       | getUserSettings_listener _ => Fulfilled result
       | saveUserSettings_listener _ => Fulfilled JUndefined
       end.

(** Calling a listener with the arguments of a message. *)
Definition call_listener (l : Listener) (args : list JsValue) (w : Renderer)
  : Renderer :=
  let result := argument 0 args in
  let error := argument 1 args in
  match l with
  | autostartTaskExist_listener p =>
      if ToBoolean error then reject p error w
      else resolve p (JBool (loose_ne_null result)) w
  | getUserSettings_listener p =>
      if ToBoolean error then reject p error w
      else resolve p result w
  | saveUserSettings_listener p =>
      if ToBoolean error then reject p error w
      else resolve p JUndefined w
  end.

(** [emit(channel, event, ...args)]: call the listeners registered on the
    channel when the message arrives, in registration order. *)
Definition emit (c : string) (args : list JsValue) (w : Renderer) : Renderer :=
  foldl (λ w' l, call_listener l args w') w (listeners_on c w).

(** ** Microtasks

    After each task the promise jobs run: a pending promise that was
    resolved with another promise takes that promise's state. *)
Definition adopt_step (ps : list Promise) (pr : Promise) : Promise :=
  match state pr, adopts pr with
  | Pending, Some q =>
      match ps !! q with
      | Some t => {| state := state t; adopts := adopts pr |}
      | None => pr
      end
  | _, _ => pr
  end.

Definition adopt_round (ps : list Promise) : list Promise :=
  adopt_step ps <$> ps.

Definition microtask_checkpoint (w : Renderer) : Renderer :=
  set_promises (Nat.iter (length (promises w)) adopt_round (promises w)) w.

(** ** The entry point of the rofi window

    [Main] of [src/apps/seelen_rofi/index.tsx]. Everything it calls is
    imported from other modules, so how each call ends is a parameter; the
    model records which calls are made, in which order and with which
    arguments. The DOM container and the React root are named by handles. *)

Module Rofi.

(** How the imported functions behave. A function whose result is awaited
    returns a promise, given by the state it ends in ([Pending]: it never
    settles), unless it throws at once. Between the calls of [createRoot]
    and [render] the receiver and the argument of [render] are evaluated:
    [render_method] is the lookup of [.render] on the root, [store] the read
    of the imported binding, [jsx_App] and [jsx_Provider] the creation of
    the elements [<App />] and [<Provider store={store}>...</Provider>] by
    the JSX runtime; each may throw. *)
Record Collaborators : Type := {
  wrapConsole : Completion unit;
  declareDocumentAsLayeredHitbox : Completion PromiseState;
  initStore : Completion PromiseState;
  registerDocumentEvents : Completion unit;
  getRootContainer : Completion nat;
  createRoot : nat → Completion nat;
  render_method : nat → Completion unit;
  store : Completion nat;
  jsx_App : Completion nat;
  jsx_Provider : nat → nat → Completion nat;
  render : nat → Completion unit;
}.

Inductive Call : Type :=
  | wrapConsole_called
  | declareDocumentAsLayeredHitbox_called
  | initStore_called
  | registerDocumentEvents_called
  | getRootContainer_called
  | createRoot_called (container : nat)
  | render_called (root : nat).

(** The body of an [async] function goes on, is aborted by an exception, or
    is suspended for good at an [await]. *)
Inductive Progress (A : Type) : Type :=
  | Continues (a : A)
  | Aborts (e : JsValue)
  | Suspended.
Arguments Continues {A} a.
Arguments Aborts {A} e.
Arguments Suspended {A}.

Definition Script (A : Type) : Type := list Call → Progress A * list Call.

Definition Script_bind {A B} (m : Script A) (k : A → Script B) : Script B :=
  λ log, match m log with
         | (Continues a, log') => k a log'
         | (Aborts e, log') => (Aborts e, log')
         | (Suspended, log') => (Suspended, log')
         end.

(** Calling an imported function: the call is made, and an exception it
    throws aborts the body. *)
Definition perform {A} (c : Call) (outcome : Completion A) : Script A :=
  λ log, (match outcome with
          | Return a => Continues a
          | Throw e => Aborts e
          end, log ++ [c]).

(** A step that is no call of an imported function of [Main]: it leaves no
    entry in the log, and an exception it throws aborts the body. *)
Definition evaluate {A} (outcome : Completion A) : Script A :=
  λ log, (match outcome with
          | Return a => Continues a
          | Throw e => Aborts e
          end, log).

(** [await]: go on with the value of a fulfilled promise, throw the reason of
    a rejected one, wait for ever for one that does not settle. *)
Definition await (m : Script PromiseState) : Script JsValue :=
  λ log, match m log with
         | (Continues (Fulfilled v), log') => (Continues v, log')
         | (Continues (Rejected e), log') => (Aborts e, log')
         | (Continues Pending, log') => (Suspended, log')
         | (Aborts e, log') => (Aborts e, log')
         | (Suspended, log') => (Suspended, log')
         end.

Definition Main (env : Collaborators) : Script unit :=
  Script_bind (perform wrapConsole_called (wrapConsole env)) (λ _,
  Script_bind (await (perform declareDocumentAsLayeredHitbox_called
                        (declareDocumentAsLayeredHitbox env))) (λ _,
  Script_bind (await (perform initStore_called (initStore env))) (λ _,
  Script_bind (perform registerDocumentEvents_called
                 (registerDocumentEvents env)) (λ _,
  Script_bind (perform getRootContainer_called (getRootContainer env))
    (λ container,
  Script_bind (perform (createRoot_called container)
                 (createRoot env container)) (λ root,
  Script_bind (evaluate (render_method env root)) (λ _,
  Script_bind (evaluate (store env)) (λ store_value,
  Script_bind (evaluate (jsx_App env)) (λ app,
  Script_bind (evaluate (jsx_Provider env store_value app)) (λ _,
  perform (render_called root) (render env root))))))))))).

(** The call [Main()] at the end of the module: the promise of the [async]
    function, in the state it ends in, and the calls that were made. A body
    that runs to its end fulfils the promise with [undefined]. *)
Definition call_async {A} (body : Script A) : PromiseState * list Call :=
  match body [] with
  | (Continues _, log) => (Fulfilled JUndefined, log)
  | (Aborts e, log) => (Rejected e, log)
  | (Suspended, log) => (Pending, log)
  end.

(** The error a call ends with, if it fails: the exception it throws or, for
    an awaited call, the reason its promise is rejected with. *)
Definition call_failure (env : Collaborators) (c : Call) : option JsValue :=
  let thrown {A} (o : Completion A) : option JsValue :=
    match o with Return _ => None | Throw e => Some e end in
  let awaited (o : Completion PromiseState) : option JsValue :=
    match o with
    | Return (Rejected e) => Some e
    | Return _ => None
    | Throw e => Some e
    end in
  match c with
  | wrapConsole_called => thrown (wrapConsole env)
  | declareDocumentAsLayeredHitbox_called =>
      awaited (declareDocumentAsLayeredHitbox env)
  | initStore_called => awaited (initStore env)
  | registerDocumentEvents_called => thrown (registerDocumentEvents env)
  | getRootContainer_called => thrown (getRootContainer env)
  | createRoot_called container => thrown (createRoot env container)
  | render_called root => thrown (render env root)
  end.

End Rofi.

(** ** The bridge *)

Section Bridge.

(** The reply channel of each request channel, from [./constants]. *)
Variable REPLY_BY_CHANNEL : Channel → string.

Definition enableAutostart : M JsValue :=
  ipcRenderer_send ENABLE_AUTOSTART [] ;;
  M_ret JUndefined.

Definition disableAutostart : M JsValue :=
  ipcRenderer_send DISABLE_AUTOSTART [] ;;
  M_ret JUndefined.

Definition autostartTaskExist : M nat :=
  new_Promise (λ p,
    ipcRenderer_send GET_AUTOSTART_STATUS [] ;;
    ipcRenderer_on (REPLY_BY_CHANNEL GET_AUTOSTART_STATUS)
                   (autostartTaskExist_listener p)).

Definition getUserSettings (route : JsValue) : M nat :=
  async_function (
    new_Promise (λ p,
      ipcRenderer_send GET_USER_SETTINGS [route] ;;
      ipcRenderer_on (REPLY_BY_CHANNEL GET_USER_SETTINGS)
                     (getUserSettings_listener p))).

Definition saveUserSettings (settings : JsValue) : M nat :=
  new_Promise (λ p,
    ipcRenderer_send SAVE_USER_SETTINGS [settings] ;;
    ipcRenderer_on (REPLY_BY_CHANNEL SAVE_USER_SETTINGS)
                   (saveUserSettings_listener p)).

(** ** Requests, events and runs *)

(** The three request-response operations and their arguments. *)
Inductive Request : Type :=
  | AutostartTaskExist
  | GetUserSettings (route : JsValue)
  | SaveUserSettings (settings : JsValue).

Definition invoke (r : Request) : M nat :=
  match r with
  | AutostartTaskExist => autostartTaskExist
  | GetUserSettings route => getUserSettings route
  | SaveUserSettings settings => saveUserSettings settings
  end.

Definition request_channel (r : Request) : Channel :=
  match r with
  | AutostartTaskExist => GET_AUTOSTART_STATUS
  | GetUserSettings _ => GET_USER_SETTINGS
  | SaveUserSettings _ => SAVE_USER_SETTINGS
  end.

Definition request_payload (r : Request) : list JsValue :=
  match r with
  | AutostartTaskExist => []
  | GetUserSettings route => [route]
  | SaveUserSettings settings => [settings]
  end.

Definition reply_channel (r : Request) : string :=
  REPLY_BY_CHANNEL (request_channel r).

(** What happens in the renderer: the page calls a function of the bridge,
    or a message of the privileged process arrives on some channel. Each is
    one task of the event loop, followed by a microtask checkpoint. *)
Inductive Event : Type :=
  | call_enableAutostart
  | call_disableAutostart
  | call_request (r : Request)
  | message (channel : string) (args : list JsValue).

Definition step (ev : Event) (w : Renderer) : Renderer :=
  match ev with
  | call_enableAutostart => microtask_checkpoint (enableAutostart w).2
  | call_disableAutostart => microtask_checkpoint (disableAutostart w).2
  | call_request r => microtask_checkpoint (invoke r w).2
  | message c args => microtask_checkpoint (emit c args w)
  end.

Definition run (es : list Event) (w : Renderer) : Renderer :=
  foldl (λ w' ev, step ev w') w es.

Definition is_message_on (c : string) (ev : Event) : bool :=
  match ev with
  | message c' _ => bool_decide (c' = c)
  | _ => false
  end.

(** No message arrives on channel [c] during [es]. *)
Definition silent_on (c : string) (es : list Event) : bool :=
  forallb (λ ev, negb (is_message_on c ev)) es.

(** Listeners only capture promises that exist. *)
Definition well_formed (w : Renderer) : Prop :=
  ∀ c l, l ∈ listeners_on c w → listener_promise l < length (promises w).

(** The listener a request registers, for the promise [p] it creates. *)
Definition request_listener (r : Request) (p : nat) : Listener :=
  match r with
  | AutostartTaskExist => autostartTaskExist_listener p
  | GetUserSettings _ => getUserSettings_listener p
  | SaveUserSettings _ => saveUserSettings_listener p
  end.

(** The promise captured by the listener of a request made when the store
    holds [n] promises, and the promises the request adds to the store. *)
Definition request_promise (r : Request) (n : nat) : nat :=
  match r with
  | GetUserSettings _ => S n
  | _ => n
  end.

Definition request_promises (r : Request) (n : nat) : list Promise :=
  match r with
  | GetUserSettings _ =>
      [{| state := Pending; adopts := Some (S n) |}; fresh_promise]
  | _ => [fresh_promise]
  end.

(** How the future of a request is expected to settle on a reply: rejected
    with the error when the listener's test of it succeeds, fulfilled with
    the value of the operation otherwise. *)
Definition expected_settlement (r : Request) (args : list JsValue)
  : PromiseState :=
  if ToBoolean (argument 1 args) then Rejected (argument 1 args)
  else match r with
       | AutostartTaskExist => Fulfilled (JBool (is_present (argument 0 args)))
       | GetUserSettings _ => Fulfilled (argument 0 args)
       | SaveUserSettings _ => Fulfilled JUndefined
       end.

(** The effect of the listeners [ls] on the store, one after the other. *)
Definition settle_all (ls : list Listener) (args : list JsValue)
    (ps : list Promise) : list Promise :=
  foldl (λ ps' l, settle (listener_promise l) (listener_outcome l args) ps')
        ps ls.

(** The future [f] waits for a message on channel [c]: the listener [L] is
    registered there and nowhere else, the promise it captured is untouched,
    and [f] is that promise or was resolved with it. *)
Definition awaiting (c : string) (L : Listener) (f : nat) (w : Renderer)
  : Prop :=
  promises w !! listener_promise L = Some fresh_promise
  ∧ (f = listener_promise L
     ∨ promises w !! f
       = Some {| state := Pending; adopts := Some (listener_promise L) |})
  ∧ L ∈ listeners_on c w
  ∧ (∀ c' l, l ∈ listeners_on c' w →
       listener_promise l = listener_promise L → c' = c ∧ l = L).

(** The message an event makes the bridge send, if any. *)
Definition outgoing (ev : Event) : list (Channel * list JsValue) :=
  match ev with
  | call_enableAutostart => [(ENABLE_AUTOSTART, [])]
  | call_disableAutostart => [(DISABLE_AUTOSTART, [])]
  | call_request r => [(request_channel r, request_payload r)]
  | message _ _ => []
  end.

(** The event is a request whose reply channel is [c]. *)
Definition registers_on (c : string) (ev : Event) : bool :=
  match ev with
  | call_request r => bool_decide (reply_channel r = c)
  | _ => false
  end.

(** ** The promise store *)

Lemma settle_length p s ps : length (settle p s ps) = length ps.
Proof.
  unfold settle. destruct (ps !! p) as [[[] []]|]; try done.
  by rewrite length_insert.
Qed.

Lemma settle_lookup_ne p s ps i : p ≠ i → settle p s ps !! i = ps !! i.
Proof.
  intros Hne. unfold settle. destruct (ps !! p) as [[[] []]|]; try done.
  by rewrite list_lookup_insert_ne.
Qed.

(** Only an untouched promise can be settled by its resolving functions. *)
Lemma settle_inert p s ps i pr :
  ps !! i = Some pr → pr ≠ fresh_promise → settle p s ps !! i = Some pr.
Proof.
  intros Hi Hpr. destruct (decide (p = i)) as [->|Hne].
  - unfold settle. rewrite Hi. by destruct pr as [[] []].
  - by rewrite settle_lookup_ne.
Qed.

Lemma settle_fresh p s ps :
  ps !! p = Some fresh_promise →
  settle p s ps !! p = Some {| state := s; adopts := None |}.
Proof.
  intros Hp. unfold settle. rewrite Hp. simpl.
  apply list_lookup_insert_eq. by eapply lookup_lt_Some.
Qed.

Lemma listener_outcome_settled l args :
  listener_outcome l args ≠ Pending.
Proof.
  unfold listener_outcome. destruct (ToBoolean _); [done|]. by destruct l.
Qed.

Lemma settle_all_cons l ls args ps :
  settle_all (l :: ls) args ps
  = settle_all ls args
      (settle (listener_promise l) (listener_outcome l args) ps).
Proof. reflexivity. Qed.

Lemma settle_all_length ls args ps :
  length (settle_all ls args ps) = length ps.
Proof.
  revert ps. induction ls as [|l ls IH]; intros ps; [done|].
  by rewrite settle_all_cons, IH, settle_length.
Qed.

Lemma settle_all_other ls args ps i :
  (∀ l, l ∈ ls → listener_promise l ≠ i) →
  settle_all ls args ps !! i = ps !! i.
Proof.
  revert ps. induction ls as [|l ls IH]; intros ps Hls; [done|].
  rewrite settle_all_cons, IH.
  - apply settle_lookup_ne, Hls. left.
  - intros l' Hl'. apply Hls. by right.
Qed.

Lemma settle_all_inert ls args ps i pr :
  ps !! i = Some pr → pr ≠ fresh_promise →
  settle_all ls args ps !! i = Some pr.
Proof.
  revert ps. induction ls as [|l ls IH]; intros ps Hi Hpr; [done|].
  rewrite settle_all_cons. apply IH; [|done]. by apply settle_inert.
Qed.

(** The first listener that captured [q] settles it; the later ones find it
    settled. *)
Lemma settle_all_fresh ls args ps L :
  ps !! listener_promise L = Some fresh_promise →
  L ∈ ls →
  (∀ l, l ∈ ls → listener_promise l = listener_promise L → l = L) →
  settle_all ls args ps !! listener_promise L
  = Some {| state := listener_outcome L args; adopts := None |}.
Proof.
  revert ps. induction ls as [|l ls IH]; intros ps Hq HL Huniq.
  - by apply elem_of_nil in HL.
  - rewrite settle_all_cons.
    destruct (decide (listener_promise l = listener_promise L)) as [Heq|Hne].
    + assert (l = L) as -> by (apply Huniq; [left|done]).
      apply settle_all_inert.
      * by apply settle_fresh.
      * unfold fresh_promise. intros [= Hs]. by apply listener_outcome_settled in Hs.
    + apply IH.
      * by rewrite settle_lookup_ne.
      * apply elem_of_cons in HL as [->|HL]; [done|done].
      * intros l' Hl'. apply Huniq. by right.
Qed.

(** ** Listeners and [emit] *)

Lemma call_listener_eq l args w :
  call_listener l args w
  = set_promises
      (settle (listener_promise l) (listener_outcome l args) (promises w)) w.
Proof.
  unfold call_listener, listener_outcome, resolve, reject.
  destruct l; simpl; by destruct (ToBoolean _).
Qed.

Lemma foldl_call_listener ls args w :
  foldl (λ w' l, call_listener l args w') w ls
  = set_promises (settle_all ls args (promises w)) w.
Proof.
  revert w. induction ls as [|l ls IH]; intros w.
  - by destruct w.
  - simpl. by rewrite IH, call_listener_eq.
Qed.

Lemma emit_eq c args w :
  emit c args w
  = set_promises (settle_all (listeners_on c w) args (promises w)) w.
Proof. apply foldl_call_listener. Qed.

(** ** Microtask checkpoints *)

Lemma adopt_round_lookup ps i :
  adopt_round ps !! i = adopt_step ps <$> ps !! i.
Proof. apply list_lookup_fmap. Qed.

Lemma adopt_rounds_length n ps :
  length (Nat.iter n adopt_round ps) = length ps.
Proof.
  induction n as [|n IH]; [done|]. simpl.
  unfold adopt_round at 1. by rewrite length_fmap.
Qed.

(** A promise that is settled, or was never resolved with another promise,
    is left alone. *)
Lemma adopt_rounds_keep n ps i pr :
  ps !! i = Some pr → state pr ≠ Pending ∨ adopts pr = None →
  Nat.iter n adopt_round ps !! i = Some pr.
Proof.
  intros Hi Hpr. induction n as [|n IH]; [done|]. simpl.
  rewrite adopt_round_lookup, IH. simpl. f_equal.
  unfold adopt_step. destruct pr as [[] []]; simpl in *; try done.
  by destruct Hpr.
Qed.

(** A promise resolved with a pending promise stays pending. *)
Lemma adopt_rounds_pending n ps f q :
  ps !! f = Some {| state := Pending; adopts := Some q |} →
  ps !! q = Some fresh_promise →
  Nat.iter n adopt_round ps !! f
  = Some {| state := Pending; adopts := Some q |}.
Proof.
  intros Hf Hq. induction n as [|n IH]; [done|]. simpl.
  rewrite adopt_round_lookup, IH. simpl. f_equal.
  unfold adopt_step. simpl.
  by rewrite (adopt_rounds_keep n ps q fresh_promise) by (done || by right).
Qed.

(** A promise resolved with a settled promise takes its state in the first
    round. *)
Lemma adopt_rounds_adopt n ps f q s :
  ps !! f = Some {| state := Pending; adopts := Some q |} →
  ps !! q = Some {| state := s; adopts := None |} →
  s ≠ Pending →
  Nat.iter (S n) adopt_round ps !! f
  = Some {| state := s; adopts := Some q |}.
Proof.
  intros Hf Hq Hs. rewrite Nat.iter_succ_r.
  apply adopt_rounds_keep; [|by left].
  rewrite adopt_round_lookup, Hf. simpl. f_equal.
  unfold adopt_step. simpl. by rewrite Hq.
Qed.

Lemma checkpoint_listeners_on c w :
  listeners_on c (microtask_checkpoint w) = listeners_on c w.
Proof. reflexivity. Qed.

Lemma checkpoint_sent w : sent (microtask_checkpoint w) = sent w.
Proof. reflexivity. Qed.

Lemma checkpoint_length w :
  length (promises (microtask_checkpoint w)) = length (promises w).
Proof. apply adopt_rounds_length. Qed.

Lemma checkpoint_keep w i pr :
  promises w !! i = Some pr → state pr ≠ Pending ∨ adopts pr = None →
  promises (microtask_checkpoint w) !! i = Some pr.
Proof. apply adopt_rounds_keep. Qed.

(** ** What a request does to the renderer *)

Lemma listener_promise_request r p :
  listener_promise (request_listener r p) = p.
Proof. by destruct r. Qed.

Lemma invoke_eq r w :
  invoke r w
  = (Return (length (promises w)),
     {| sent := sent w ++ [(request_channel r, request_payload r)];
        listeners :=
          <[reply_channel r :=
              listeners_on (reply_channel r) w
              ++ [request_listener r (request_promise r (length (promises w)))]]>
            (listeners w);
        promises := promises w ++ request_promises r (length (promises w)) |}).
Proof.
  destruct r as [|route|settings]; try reflexivity.
  cbn [invoke]. unfold getUserSettings, async_function, new_Promise, M_bind.
  cbn - [fresh_promise]. unfold resolve_with_promise, reply_channel.
  rewrite length_app, Nat.add_1_r. cbn - [fresh_promise].
  rewrite lookup_app_l, list_lookup_middle by (rewrite ?length_app; simpl; lia || done).
  cbn. repeat f_equal.
  rewrite <- (assoc_L (++)). cbn.
  rewrite (insert_app_r_alt _ _ (length (promises w))) by lia.
  by rewrite Nat.sub_diag.
Qed.

Lemma invoke_promises r w :
  promises (invoke r w).2
  = promises w ++ request_promises r (length (promises w)).
Proof. by rewrite invoke_eq. Qed.

Lemma invoke_listeners_on r w c :
  listeners_on c (invoke r w).2
  = listeners_on c w
    ++ (if decide (reply_channel r = c)
        then [request_listener r (request_promise r (length (promises w)))]
        else []).
Proof.
  rewrite invoke_eq. unfold listeners_on at 1. cbn.
  rewrite lookup_insert. destruct (decide (reply_channel r = c)) as [->|Hne].
  - done.
  - by rewrite app_nil_r.
Qed.

Lemma request_promises_lookup r n (ps : list Promise) :
  length ps = n →
  (ps ++ request_promises r n) !! request_promise r n = Some fresh_promise.
Proof.
  intros <-. destruct r; simpl.
  - by rewrite list_lookup_middle.
  - change (?a :: ?b :: nil) with ([a] ++ [b]). rewrite (assoc_L (++)).
    rewrite list_lookup_middle; [done|]. rewrite length_app. simpl. lia.
  - by rewrite list_lookup_middle.
Qed.

Lemma request_promise_bounds r n :
  n ≤ request_promise r n < n + length (request_promises r n).
Proof. destruct r; simpl; lia. Qed.

(** ** Well-formed renderers *)

Lemma well_formed_init : well_formed init.
Proof.
  intros c l Hl. unfold listeners_on, init in Hl. cbn in Hl.
  rewrite lookup_empty in Hl. by apply elem_of_nil in Hl.
Qed.

Lemma well_formed_checkpoint w :
  well_formed w → well_formed (microtask_checkpoint w).
Proof.
  intros Hw c l Hl. rewrite checkpoint_length. by apply (Hw c).
Qed.

Lemma well_formed_invoke r w : well_formed w → well_formed (invoke r w).2.
Proof.
  intros Hw c l Hl. rewrite invoke_promises, length_app.
  rewrite invoke_listeners_on in Hl. apply elem_of_app in Hl as [Hl|Hl].
  - apply Hw in Hl. lia.
  - destruct (decide _); [|by apply elem_of_nil in Hl].
    apply list_elem_of_singleton in Hl as ->.
    rewrite listener_promise_request. apply request_promise_bounds.
Qed.

Lemma well_formed_emit c args w : well_formed w → well_formed (emit c args w).
Proof.
  intros Hw c' l Hl. rewrite emit_eq in *. cbn.
  rewrite settle_all_length. by apply (Hw c').
Qed.

Lemma well_formed_step ev w : well_formed w → well_formed (step ev w).
Proof.
  intros Hw. destruct ev; cbn [step]; apply well_formed_checkpoint.
  - done.
  - done.
  - by apply well_formed_invoke.
  - by apply well_formed_emit.
Qed.

Lemma run_app es1 es2 w : run (es1 ++ es2) w = run es2 (run es1 w).
Proof. apply foldl_app. Qed.

Lemma run_cons ev es w : run (ev :: es) w = run es (step ev w).
Proof. reflexivity. Qed.

Lemma well_formed_run es w : well_formed w → well_formed (run es w).
Proof.
  revert w. induction es as [|ev es IH]; intros w Hw; [done|].
  rewrite run_cons. by apply IH, well_formed_step.
Qed.

(** ** Settled promises stay as they are *)

Lemma settled_not_fresh pr : state pr ≠ Pending → pr ≠ fresh_promise.
Proof. by intros Hs ->. Qed.

Lemma step_keeps_settled ev w p pr :
  promises w !! p = Some pr → state pr ≠ Pending →
  promises (step ev w) !! p = Some pr.
Proof.
  intros Hp Hs. destruct ev; cbn [step];
    (apply checkpoint_keep; [|by left]).
  - done.
  - done.
  - rewrite invoke_promises. rewrite lookup_app_l; [done|].
    by eapply lookup_lt_Some.
  - rewrite emit_eq. cbn. by apply settle_all_inert, settled_not_fresh.
Qed.

Lemma run_keeps_settled es w p pr :
  promises w !! p = Some pr → state pr ≠ Pending →
  promises (run es w) !! p = Some pr.
Proof.
  revert w. induction es as [|ev es IH]; intros w Hp Hs; [done|].
  rewrite run_cons. apply IH; [|done]. by apply step_keeps_settled.
Qed.

Lemma promise_state_settled es w p s :
  promise_state w p = Some s → is_settled s = true →
  promise_state (run es w) p = Some s.
Proof.
  unfold promise_state. intros Hp Hs.
  apply fmap_Some in Hp as (pr & Hp & ->).
  rewrite (run_keeps_settled es w p pr); [done..|].
  intros Heq. by rewrite Heq in Hs.
Qed.

(** ** A pending request waits for its reply channel *)

Lemma awaiting_invoke r w :
  well_formed w →
  awaiting (reply_channel r)
    (request_listener r (request_promise r (length (promises w))))
    (length (promises w)) (invoke r w).2.
Proof.
  intros Hw. unfold awaiting. rewrite listener_promise_request.
  rewrite invoke_promises.
  pose proof (request_promise_bounds r (length (promises w))) as Hb.
  split; [|split; [|split]].
  - by apply request_promises_lookup.
  - destruct r; [by left| |by left]. right. simpl.
    by rewrite list_lookup_middle.
  - rewrite invoke_listeners_on. rewrite decide_True by done.
    apply elem_of_app. right. left.
  - intros c' l Hl Heq. rewrite invoke_listeners_on in Hl.
    apply elem_of_app in Hl as [Hl|Hl].
    + apply Hw in Hl. lia.
    + destruct (decide _); [|by apply elem_of_nil in Hl].
      by apply list_elem_of_singleton in Hl.
Qed.

Lemma awaiting_checkpoint c L f w :
  awaiting c L f w → awaiting c L f (microtask_checkpoint w).
Proof.
  intros (Hq & Hf & HL & Huniq). unfold awaiting. repeat split.
  - apply checkpoint_keep; [done|by right].
  - destruct Hf as [->|Hf]; [by left|right].
    by apply adopt_rounds_pending.
  - done.
  - by apply (Huniq c' l).
  - by apply (Huniq c' l).
Qed.

Lemma awaiting_call c L f r w :
  awaiting c L f w → awaiting c L f (invoke r w).2.
Proof.
  intros (Hq & Hf & HL & Huniq). unfold awaiting.
  rewrite invoke_promises.
  assert (listener_promise L < length (promises w)) as Hlt
    by by eapply lookup_lt_Some.
  assert (∀ c' l, l ∈ listeners_on c' (invoke r w).2 →
            listener_promise l = listener_promise L → l ∈ listeners_on c' w)
    as Hold.
  { intros c' l Hl Heq. rewrite invoke_listeners_on in Hl.
    apply elem_of_app in Hl as [Hl|Hl]; [done|].
    destruct (decide _); [|by apply elem_of_nil in Hl].
    apply list_elem_of_singleton in Hl as ->.
    rewrite listener_promise_request in Heq.
    pose proof (request_promise_bounds r (length (promises w))). lia. }
  split; [|split; [|split]].
  - by rewrite lookup_app_l.
  - destruct Hf as [->|Hf]; [by left|right].
    rewrite lookup_app_l; [done|]. by eapply lookup_lt_Some.
  - rewrite invoke_listeners_on. apply elem_of_app. by left.
  - intros c' l Hl Heq. apply Huniq; [|done]. by apply Hold.
Qed.

Lemma awaiting_other_message c L f c' args w :
  c' ≠ c → awaiting c L f w → awaiting c L f (emit c' args w).
Proof.
  intros Hne (Hq & Hf & HL & Huniq). unfold awaiting.
  rewrite emit_eq. cbn [promises set_promises].
  split; [|split; [|split]].
  - rewrite settle_all_other; [done|].
    intros l Hl Heq. by destruct (Huniq c' l Hl Heq).
  - destruct Hf as [->|Hf]; [by left|right].
    by apply settle_all_inert.
  - done.
  - done.
Qed.

Lemma awaiting_step c L f ev w :
  is_message_on c ev = false → awaiting c L f w → awaiting c L f (step ev w).
Proof.
  intros Hev Hw. destruct ev as [| |r|c' args]; cbn [step];
    apply awaiting_checkpoint.
  - done.
  - done.
  - by apply awaiting_call.
  - apply awaiting_other_message; [|done].
    cbn in Hev. by apply bool_decide_eq_false in Hev.
Qed.

Lemma awaiting_run c L f es w :
  silent_on c es = true → awaiting c L f w → awaiting c L f (run es w).
Proof.
  revert w. induction es as [|ev es IH]; intros w Hes Hw; [done|].
  cbn in Hes. apply andb_prop in Hes as [Hev Hes].
  rewrite run_cons. apply IH; [done|].
  apply awaiting_step; [|done]. by apply negb_true_iff.
Qed.

Lemma awaiting_pending c L f w :
  awaiting c L f w → promise_state w f = Some Pending.
Proof.
  intros (Hq & Hf & _). unfold promise_state.
  destruct Hf as [->|Hf]; [by rewrite Hq|by rewrite Hf].
Qed.

(** The message on the reply channel settles the future with the outcome of
    its listener. *)
Lemma awaiting_reply c L f args w :
  awaiting c L f w →
  promise_state (step (message c args) w) f = Some (listener_outcome L args).
Proof.
  intros (Hq & Hf & HL & Huniq). cbn [step]. rewrite emit_eq.
  set (ps := settle_all (listeners_on c w) args (promises w)).
  assert (ps !! listener_promise L
          = Some {| state := listener_outcome L args; adopts := None |}) as Hq'.
  { apply settle_all_fresh; [done..|].
    intros l Hl Heq. by destruct (Huniq c l Hl Heq). }
  unfold promise_state, microtask_checkpoint. cbn [promises set_promises].
  fold ps. destruct Hf as [->|Hf].
  - by rewrite (adopt_rounds_keep _ _ _ _ Hq') by by right.
  - assert (ps !! f
            = Some {| state := Pending; adopts := Some (listener_promise L) |})
      as Hf' by by apply settle_all_inert.
    destruct (length ps) as [|n] eqn:Hlen.
    + apply lookup_lt_Some in Hf'. lia.
    + rewrite (adopt_rounds_adopt n ps f _ _ Hf' Hq'); [done|].
      apply listener_outcome_settled.
Qed.

Lemma listener_outcome_request r p args :
  listener_outcome (request_listener r p) args = expected_settlement r args.
Proof. by destruct r. Qed.

Lemma absent_is_falsy v : is_present v = false → ToBoolean v = false.
Proof. by destruct v. Qed.

(** A request made in a well-formed renderer returns a future; whatever
    else happens meanwhile, the first message on its reply channel settles
    that future as expected. *)
Lemma request_then_reply r w es args :
  well_formed w →
  silent_on (reply_channel r) es = true →
  ∃ f w1,
    invoke r w = (Return f, w1)
    ∧ promise_state (run (es ++ [message (reply_channel r) args]) w1) f
      = Some (expected_settlement r args).
Proof.
  intros Hw Hes. exists (length (promises w)), (invoke r w).2.
  split; [by rewrite invoke_eq|].
  rewrite run_app, <- (listener_outcome_request r
    (request_promise r (length (promises w)))).
  apply awaiting_reply, awaiting_run; [done|]. by apply awaiting_invoke.
Qed.

(** Events never remove a listener. *)
Lemma step_listeners_on ev w c :
  ∃ later, listeners_on c (step ev w) = listeners_on c w ++ later.
Proof.
  destruct ev as [| |r|c' args]; cbn [step]; rewrite checkpoint_listeners_on.
  - exists []. by rewrite app_nil_r.
  - exists []. by rewrite app_nil_r.
  - rewrite invoke_listeners_on. by eexists.
  - rewrite emit_eq. exists []. by rewrite app_nil_r.
Qed.

Lemma run_listeners_on es w c :
  ∃ later, listeners_on c (run es w) = listeners_on c w ++ later.
Proof.
  revert w. induction es as [|ev es IH]; intros w.
  - exists []. by rewrite app_nil_r.
  - rewrite run_cons. destruct (IH (step ev w)) as [l2 ->].
    destruct (step_listeners_on ev w c) as [l1 ->].
    exists (l1 ++ l2). by rewrite (assoc_L (++)).
Qed.

Lemma expected_settlement_settled r args :
  is_settled (expected_settlement r args) = true.
Proof.
  unfold expected_settlement. destruct (ToBoolean _); [done|]. by destruct r.
Qed.

Lemma promise_state_invoke r w p s :
  promise_state w p = Some s → promise_state (invoke r w).2 p = Some s.
Proof.
  unfold promise_state. intros Hp. rewrite invoke_promises.
  rewrite lookup_app_l; [done|].
  apply fmap_Some in Hp as (pr & Hp & _). by eapply lookup_lt_Some.
Qed.

Lemma promise_state_lt w p s :
  promise_state w p = Some s → p < length (promises w).
Proof.
  unfold promise_state. intros Hp.
  apply fmap_Some in Hp as (pr & Hp & _). by eapply lookup_lt_Some.
Qed.

(** ** The properties of the bridge *)

(** C1 (as amended): for every request-response operation, when the first
    message on the reply channel carries an error payload that is truthy,
    the returned future is rejected with exactly that error value. *)
Theorem reply_with_truthy_error_rejects r w es args :
  well_formed w →
  silent_on (reply_channel r) es = true →
  ToBoolean (argument 1 args) = true →
  ∃ f w1,
    invoke r w = (Return f, w1)
    ∧ promise_state (run (es ++ [message (reply_channel r) args]) w1) f
      = Some (Rejected (argument 1 args)).
Proof.
  intros Hw Hes Herr.
  destruct (request_then_reply r w es args Hw Hes) as (f & w1 & Hinv & Hst).
  exists f, w1. split; [done|]. rewrite Hst.
  unfold expected_settlement. by rewrite Herr.
Qed.

(** C2 (as amended): a request-response call sends exactly one message, on
    the channel of the operation and with its payload, and registers exactly
    one listener, on the reply channel of the operation; that listener is
    never deregistered: it is still registered after every later event,
    settlement of the call included. *)
Theorem request_sends_once_and_listener_stays r w es :
  ∃ f w1 L,
    invoke r w = (Return f, w1)
    ∧ sent w1 = sent w ++ [(request_channel r, request_payload r)]
    ∧ (∀ c, listeners_on c w1
            = listeners_on c w
              ++ (if decide (reply_channel r = c) then [L] else []))
    ∧ ∃ later,
        listeners_on (reply_channel r) (run es w1)
        = listeners_on (reply_channel r) w ++ [L] ++ later.
Proof.
  exists (length (promises w)), (invoke r w).2,
    (request_listener r (request_promise r (length (promises w)))).
  split; [by rewrite invoke_eq|]. split; [by rewrite invoke_eq|].
  split; [intros c; apply invoke_listeners_on|].
  destruct (run_listeners_on es (invoke r w).2 (reply_channel r))
    as [later ->].
  exists later. rewrite invoke_listeners_on, decide_True by done.
  by rewrite <- (assoc_L (++)).
Qed.

(** C3: when the first message on the reply channel of [getUserSettings]
    carries a result and no error, the returned future is fulfilled with
    exactly that result. *)
Theorem getUserSettings_resolves_with_result route w es args :
  well_formed w →
  silent_on (REPLY_BY_CHANNEL GET_USER_SETTINGS) es = true →
  is_present (argument 1 args) = false →
  ∃ f w1,
    getUserSettings route w = (Return f, w1)
    ∧ promise_state
        (run (es ++ [message (REPLY_BY_CHANNEL GET_USER_SETTINGS) args]) w1) f
      = Some (Fulfilled (argument 0 args)).
Proof.
  intros Hw Hes Herr.
  destruct (request_then_reply (GetUserSettings route) w es args Hw Hes)
    as (f & w1 & Hinv & Hst).
  exists f, w1. split; [done|]. unfold reply_channel in Hst. cbn in Hst.
  rewrite Hst. unfold expected_settlement. by rewrite absent_is_falsy.
Qed.

(** C4: when the first message on the reply channel of [autostartTaskExist]
    carries no error (the error payload is [null], [undefined] or missing),
    the returned future is fulfilled with a boolean: [false] when the result
    payload is [null], [undefined] or missing, [true] for every other
    result, falsy ones such as [false], [0] and the empty string included. *)
Theorem autostartTaskExist_resolves_with_presence w es args result error :
  well_formed w →
  silent_on (REPLY_BY_CHANNEL GET_AUTOSTART_STATUS) es = true →
  reply_payloads args result error →
  error = JNull ∨ error = JUndefined →
  ∃ f w1,
    autostartTaskExist w = (Return f, w1)
    ∧ (∃ b,
         promise_state
           (run (es ++ [message (REPLY_BY_CHANNEL GET_AUTOSTART_STATUS) args])
              w1) f
         = Some (Fulfilled (JBool b)))
    ∧ (result = JNull ∨ result = JUndefined →
       promise_state
         (run (es ++ [message (REPLY_BY_CHANNEL GET_AUTOSTART_STATUS) args])
            w1) f
       = Some (Fulfilled (JBool false)))
    ∧ (result ≠ JNull → result ≠ JUndefined →
       promise_state
         (run (es ++ [message (REPLY_BY_CHANNEL GET_AUTOSTART_STATUS) args])
            w1) f
       = Some (Fulfilled (JBool true))).
Proof.
  intros Hw Hes Hargs Herr.
  destruct (request_then_reply AutostartTaskExist w es args Hw Hes)
    as (f & w1 & Hinv & Hst).
  exists f, w1. split; [done|]. unfold reply_channel in Hst. cbn in Hst.
  rewrite Hst. unfold expected_settlement.
  assert (argument 0 args = result ∧ argument 1 args = error) as [-> ->]
    by by destruct Hargs.
  assert (ToBoolean error = false) as -> by by destruct Herr as [->| ->].
  split; [by eexists|]. split.
  - by intros [->| ->].
  - intros Hnull Hundef. by destruct result.
Qed.

(** C5: [enableAutostart] and [disableAutostart] return [undefined] and do
    not throw, in every state of the renderer; each sends its one message
    and leaves listeners and promises as they were, so that nothing the
    privileged process answers reaches the caller. *)
Theorem fire_and_forget_returns_undefined w :
  enableAutostart w
  = (Return JUndefined,
     {| sent := sent w ++ [(ENABLE_AUTOSTART, [])];
        listeners := listeners w;
        promises := promises w |})
  ∧ disableAutostart w
    = (Return JUndefined,
       {| sent := sent w ++ [(DISABLE_AUTOSTART, [])];
          listeners := listeners w;
          promises := promises w |}).
Proof. by split. Qed.

(** C6: when the first message on the reply channel of [saveUserSettings]
    carries no error, the returned future is fulfilled with [undefined],
    whatever result the message carries. *)
Theorem saveUserSettings_resolves_with_undefined settings w es args :
  well_formed w →
  silent_on (REPLY_BY_CHANNEL SAVE_USER_SETTINGS) es = true →
  is_present (argument 1 args) = false →
  ∃ f w1,
    saveUserSettings settings w = (Return f, w1)
    ∧ promise_state
        (run (es ++ [message (REPLY_BY_CHANNEL SAVE_USER_SETTINGS) args]) w1) f
      = Some (Fulfilled JUndefined).
Proof.
  intros Hw Hes Herr.
  destruct (request_then_reply (SaveUserSettings settings) w es args Hw Hes)
    as (f & w1 & Hinv & Hst).
  exists f, w1. split; [done|]. unfold reply_channel in Hst. cbn in Hst.
  rewrite Hst. unfold expected_settlement. by rewrite absent_is_falsy.
Qed.

(** C7: as long as no message arrives on the reply channel of a request, the
    future it returned stays pending, whatever else happens in the renderer:
    other calls of the bridge and messages on other channels. *)
Theorem request_without_reply_stays_pending r w es :
  well_formed w →
  silent_on (reply_channel r) es = true →
  ∃ f w1,
    invoke r w = (Return f, w1)
    ∧ promise_state (run es w1) f = Some Pending.
Proof.
  intros Hw Hes. exists (length (promises w)), (invoke r w).2.
  split; [by rewrite invoke_eq|].
  eapply awaiting_pending, awaiting_run; [done|]. by apply awaiting_invoke.
Qed.

(** C8: two calls of the same request-response operation, the second made
    after the reply to the first has arrived, and their replies delivered in
    that order: each future settles with its own reply, and the second reply
    does not change the first future. *)
Theorem sequential_requests_get_their_own_reply r1 r2 w es1 args1 es2 args2 :
  well_formed w →
  request_channel r2 = request_channel r1 →
  silent_on (reply_channel r1) es1 = true →
  silent_on (reply_channel r1) es2 = true →
  ∃ f1 w1 f2 w3,
    invoke r1 w = (Return f1, w1)
    ∧ invoke r2 (run (es1 ++ [message (reply_channel r1) args1]) w1)
      = (Return f2, w3)
    ∧ f1 ≠ f2
    ∧ promise_state (run (es1 ++ [message (reply_channel r1) args1]) w1) f1
      = Some (expected_settlement r1 args1)
    ∧ promise_state (run (es2 ++ [message (reply_channel r1) args2]) w3) f1
      = Some (expected_settlement r1 args1)
    ∧ promise_state (run (es2 ++ [message (reply_channel r1) args2]) w3) f2
      = Some (expected_settlement r2 args2).
Proof.
  intros Hw Hch Hes1 Hes2.
  destruct (request_then_reply r1 w es1 args1 Hw Hes1)
    as (f1 & w1 & Hinv1 & Hst1).
  set (w2 := run (es1 ++ [message (reply_channel r1) args1]) w1) in *.
  assert (well_formed w2) as Hw2.
  { apply well_formed_run. replace w1 with (invoke r1 w).2 by by rewrite Hinv1.
    by apply well_formed_invoke. }
  assert (reply_channel r2 = reply_channel r1) as Hrc
    by (unfold reply_channel; by rewrite Hch).
  rewrite <- Hrc in Hes2.
  destruct (request_then_reply r2 w2 es2 args2 Hw2 Hes2)
    as (f2 & w3 & Hinv2 & Hst2).
  rewrite Hrc in Hst2.
  exists f1, w1, f2, w3. repeat split; try done.
  - pose proof (promise_state_lt _ _ _ Hst1) as Hlt.
    rewrite invoke_eq in Hinv2. injection Hinv2 as <- _. lia.
  - apply promise_state_settled; [|apply expected_settlement_settled].
    replace w3 with (invoke r2 w2).2 by by rewrite Hinv2.
    by apply promise_state_invoke.
Qed.

(** C9: once the future returned by a request has settled, nothing that
    happens later changes it: further messages on the same reply channel,
    on other channels, and further calls leave its state as it is. *)
Theorem settled_future_ignores_further_replies r w f w1 es s es' :
  invoke r w = (Return f, w1) →
  promise_state (run es w1) f = Some s →
  is_settled s = true →
  promise_state (run (es ++ es') w1) f = Some s.
Proof.
  intros _ Hst Hs. rewrite run_app. by apply promise_state_settled.
Qed.

(** C10: when the first message on the reply channel carries both a truthy
    error and a result that is neither [null] nor [undefined], the returned
    future is rejected with the error; the result plays no part. *)
Theorem error_takes_precedence_over_result r w es args :
  well_formed w →
  silent_on (reply_channel r) es = true →
  ToBoolean (argument 1 args) = true →
  is_present (argument 0 args) = true →
  ∃ f w1,
    invoke r w = (Return f, w1)
    ∧ promise_state (run (es ++ [message (reply_channel r) args]) w1) f
      = Some (Rejected (argument 1 args)).
Proof.
  intros Hw Hes Herr _.
  destruct (request_then_reply r w es args Hw Hes) as (f & w1 & Hinv & Hst).
  exists f, w1. split; [done|]. rewrite Hst.
  unfold expected_settlement. by rewrite Herr.
Qed.

(** ** Further properties of the bridge *)

Lemma step_sent ev w : sent (step ev w) = sent w ++ outgoing ev.
Proof.
  destruct ev as [| |r|c args]; cbn [step outgoing];
    rewrite checkpoint_sent.
  - done.
  - done.
  - by rewrite invoke_eq.
  - rewrite emit_eq. cbn. by rewrite app_nil_r.
Qed.

Lemma step_listeners_count ev w c :
  length (listeners_on c (step ev w))
  = length (listeners_on c w) + (if registers_on c ev then 1 else 0).
Proof.
  destruct ev as [| |r|c' args]; cbn [step registers_on];
    rewrite checkpoint_listeners_on.
  - by rewrite Nat.add_0_r.
  - by rewrite Nat.add_0_r.
  - rewrite invoke_listeners_on, length_app.
    destruct (decide (reply_channel r = c)) as [Heq|Hne].
    + by rewrite bool_decide_eq_true_2.
    + by rewrite bool_decide_eq_false_2.
  - rewrite emit_eq. by rewrite Nat.add_0_r.
Qed.

Lemma invoke_returns r w :
  invoke r w = (Return (length (promises w)), (invoke r w).2).
Proof. by rewrite invoke_eq. Qed.

(** Two requests in flight on the same reply channel: the first message on
    that channel settles both futures, each as its own operation does. *)
Theorem concurrent_requests_settle_on_first_reply r1 r2 w es1 es2 args :
  well_formed w →
  reply_channel r2 = reply_channel r1 →
  silent_on (reply_channel r1) es1 = true →
  silent_on (reply_channel r1) es2 = true →
  ∃ f1 w1 f2 w3,
    invoke r1 w = (Return f1, w1)
    ∧ invoke r2 (run es1 w1) = (Return f2, w3)
    ∧ f1 ≠ f2
    ∧ promise_state (run es2 w3) f1 = Some Pending
    ∧ promise_state (run es2 w3) f2 = Some Pending
    ∧ promise_state (run (es2 ++ [message (reply_channel r1) args]) w3) f1
      = Some (expected_settlement r1 args)
    ∧ promise_state (run (es2 ++ [message (reply_channel r1) args]) w3) f2
      = Some (expected_settlement r2 args).
Proof.
  intros Hw Hrc Hes1 Hes2.
  set (w1 := (invoke r1 w).2).
  set (w2 := run es1 w1).
  set (w3 := (invoke r2 w2).2).
  set (L1 := request_listener r1 (request_promise r1 (length (promises w)))).
  set (L2 := request_listener r2 (request_promise r2 (length (promises w2)))).
  assert (awaiting (reply_channel r1) L1 (length (promises w)) w2) as Ha2
    by by apply awaiting_run, awaiting_invoke.
  assert (awaiting (reply_channel r1) L1 (length (promises w)) (run es2 w3))
    as Ha1 by by apply awaiting_run, awaiting_call.
  assert (awaiting (reply_channel r1) L2 (length (promises w2)) (run es2 w3))
    as Hb.
  { apply awaiting_run; [done|]. rewrite <- Hrc.
    apply awaiting_invoke, well_formed_run. by apply well_formed_invoke. }
  exists (length (promises w)), w1, (length (promises w2)), w3.
  split; [apply invoke_returns|]. split; [apply invoke_returns|].
  split.
  { apply awaiting_pending, promise_state_lt in Ha2. lia. }
  split; [by eapply awaiting_pending|]. split; [by eapply awaiting_pending|].
  rewrite run_app. split.
  - rewrite <- (listener_outcome_request r1
      (request_promise r1 (length (promises w)))).
    by apply awaiting_reply.
  - rewrite <- (listener_outcome_request r2
      (request_promise r2 (length (promises w2)))).
    by apply awaiting_reply.
Qed.

(** Every request adds one listener to its reply channel and nothing ever
    removes one: the listeners of a channel grow by the number of requests
    made for it. *)
Theorem listeners_grow_with_requests es w c :
  length (listeners_on c (run es w))
  = length (listeners_on c w) + length (List.filter (registers_on c) es).
Proof.
  revert w. induction es as [|ev es IH]; intros w.
  - cbn. lia.
  - rewrite run_cons, IH, step_listeners_count. cbn [List.filter].
    destruct (registers_on c ev); cbn; lia.
Qed.

(** The bridge sends one message per call, in the order of the calls and
    with the caller's payload as it is; a message that arrives makes it send
    nothing. *)
Theorem sent_log_follows_calls es w :
  sent (run es w) = sent w ++ flat_map outgoing es.
Proof.
  revert w. induction es as [|ev es IH]; intros w.
  - cbn. by rewrite app_nil_r.
  - rewrite run_cons, IH, step_sent. cbn [flat_map].
    by rewrite (assoc_L (++)).
Qed.

(** A reply whose error payload is falsy, be it absent or present as
    [false], a zero, [NaN] or the empty string, settles the future as a
    success; the error value is dropped. *)
Theorem reply_with_falsy_error_fulfils r w es args :
  well_formed w →
  silent_on (reply_channel r) es = true →
  ToBoolean (argument 1 args) = false →
  ∃ f w1,
    invoke r w = (Return f, w1)
    ∧ promise_state (run (es ++ [message (reply_channel r) args]) w1) f
      = Some (Fulfilled
                match r with
                | AutostartTaskExist => JBool (is_present (argument 0 args))
                | GetUserSettings _ => argument 0 args
                | SaveUserSettings _ => JUndefined
                end).
Proof.
  intros Hw Hes Herr.
  destruct (request_then_reply r w es args Hw Hes) as (f & w1 & Hinv & Hst).
  exists f, w1. split; [done|]. rewrite Hst.
  unfold expected_settlement. rewrite Herr. by destruct r.
Qed.

(** The future of a request is rejected by the first reply only for a truthy
    error payload, which is then the reason: it is never rejected with
    [null], [undefined] or another falsy reason. *)
Theorem rejection_only_by_truthy_error r w es args f w1 e :
  well_formed w →
  silent_on (reply_channel r) es = true →
  invoke r w = (Return f, w1) →
  promise_state (run (es ++ [message (reply_channel r) args]) w1) f
  = Some (Rejected e) →
  e = argument 1 args ∧ ToBoolean e = true ∧ is_present e = true.
Proof.
  intros Hw Hes Hinv Hst.
  destruct (request_then_reply r w es args Hw Hes) as (f' & w1' & Hinv' & Hst').
  rewrite Hinv in Hinv'. injection Hinv' as <- <-.
  rewrite Hst in Hst'. injection Hst' as Hst'.
  unfold expected_settlement in Hst'.
  destruct (ToBoolean (argument 1 args)) eqn:Herr.
  - injection Hst' as ->. split; [done|]. split; [done|].
    by destruct (argument 1 args).
  - by destruct r.
Qed.

End Bridge.

(** ** The bridge at work *)

Lemma reply_with_truthy_error_rejects_witness :
  ∃ f w1,
    invoke example_REPLY_BY_CHANNEL (SaveUserSettings JNull)
      (run example_REPLY_BY_CHANNEL [call_request (GetUserSettings JUndefined)]
         init)
    = (Return f, w1)
    ∧ promise_state
        (run example_REPLY_BY_CHANNEL
           ([call_enableAutostart]
            ++ [message "save-user-settings-reply"
                  [JUndefined; JString "EACCES"]]) w1) f
      = Some (Rejected (JString "EACCES")).
Proof.
  apply (reply_with_truthy_error_rejects example_REPLY_BY_CHANNEL
           (SaveUserSettings JNull)
           (run example_REPLY_BY_CHANNEL
              [call_request (GetUserSettings JUndefined)] init)
           [call_enableAutostart] [JUndefined; JString "EACCES"]).
  - apply well_formed_run, well_formed_init.
  - reflexivity.
  - reflexivity.
Defined.

(** C1 as stated fails: an error payload that is present but falsy, here the
    empty string, does not reject the future of [getUserSettings]; the
    future is fulfilled with the result instead. *)
Lemma present_falsy_error_does_not_reject :
  let args := [JUndefined; JString EmptyString] in
  is_present (argument 1 args) = true
  ∧ ¬ ∃ f w1,
        getUserSettings example_REPLY_BY_CHANNEL JUndefined init
        = (Return f, w1)
        ∧ promise_state
            (run example_REPLY_BY_CHANNEL
               [message "get-user-settings-reply" args] w1) f
          = Some (Rejected (argument 1 args)).
Proof.
  split; [reflexivity|]. intros (f & w1 & Hinv & Hst).
  injection Hinv as <- <-. vm_compute in Hst. discriminate.
Qed.

(** C2 as stated fails: after the reply has settled the future of
    [autostartTaskExist], its listener is still registered on the reply
    channel. *)
Lemma listener_outlives_settlement :
  let w2 :=
    run example_REPLY_BY_CHANNEL
      [message "get-autostart-status-reply" [JBool true]]
      (autostartTaskExist example_REPLY_BY_CHANNEL init).2 in
  autostartTaskExist example_REPLY_BY_CHANNEL init
  = (Return 0, (autostartTaskExist example_REPLY_BY_CHANNEL init).2)
  ∧ promise_state w2 0 = Some (Fulfilled (JBool true))
  ∧ ¬ (autostartTaskExist_listener 0
       ∉ listeners_on "get-autostart-status-reply" w2).
Proof.
  split; [reflexivity|]. split; [reflexivity|].
  intros Hnot. apply Hnot. vm_compute. left.
Qed.

Lemma getUserSettings_resolves_with_result_witness :
  ∃ f w1,
    getUserSettings example_REPLY_BY_CHANNEL JUndefined init = (Return f, w1)
    ∧ promise_state
        (run example_REPLY_BY_CHANNEL
           ([message "save-user-settings-reply" []]
            ++ [message "get-user-settings-reply"
                  [JObject [("theme"%string, JString "dark")]]]) w1) f
      = Some (Fulfilled (JObject [("theme"%string, JString "dark")])).
Proof.
  apply (getUserSettings_resolves_with_result example_REPLY_BY_CHANNEL
           JUndefined init [message "save-user-settings-reply" []]
           [JObject [("theme"%string, JString "dark")]]).
  - apply well_formed_init.
  - reflexivity.
  - reflexivity.
Defined.

Lemma autostartTaskExist_resolves_with_presence_witness :
  ∃ f w1,
    autostartTaskExist example_REPLY_BY_CHANNEL init = (Return f, w1)
    ∧ promise_state
        (run example_REPLY_BY_CHANNEL
           ([] ++ [message "get-autostart-status-reply"
                     [JNumber (S754_zero false); JNull]]) w1) f
      = Some (Fulfilled (JBool true)).
Proof.
  destruct (autostartTaskExist_resolves_with_presence example_REPLY_BY_CHANNEL
              init [] [JNumber (S754_zero false); JNull]
              (JNumber (S754_zero false)) JNull)
    as (f & w1 & Hcall & _ & _ & Htrue).
  - apply well_formed_init.
  - reflexivity.
  - apply reply_result_error.
  - left. reflexivity.
  - exists f, w1. split; [exact Hcall|]. apply Htrue; discriminate.
Defined.

Lemma saveUserSettings_resolves_with_undefined_witness :
  ∃ f w1,
    saveUserSettings example_REPLY_BY_CHANNEL
      (JObject [("theme"%string, JString "dark")]) init
    = (Return f, w1)
    ∧ promise_state
        (run example_REPLY_BY_CHANNEL
           ([] ++ [message "save-user-settings-reply" [JBool true]]) w1) f
      = Some (Fulfilled JUndefined).
Proof.
  apply (saveUserSettings_resolves_with_undefined example_REPLY_BY_CHANNEL
           (JObject [("theme"%string, JString "dark")]) init []
           [JBool true]).
  - apply well_formed_init.
  - reflexivity.
  - reflexivity.
Defined.

Lemma request_without_reply_stays_pending_witness :
  ∃ f w1,
    invoke example_REPLY_BY_CHANNEL (GetUserSettings (JString "theme")) init
    = (Return f, w1)
    ∧ promise_state
        (run example_REPLY_BY_CHANNEL
           [call_disableAutostart;
            call_request AutostartTaskExist;
            message "get-autostart-status-reply" [JBool true]] w1) f
      = Some Pending.
Proof.
  apply (request_without_reply_stays_pending example_REPLY_BY_CHANNEL
           (GetUserSettings (JString "theme")) init
           [call_disableAutostart;
            call_request AutostartTaskExist;
            message "get-autostart-status-reply" [JBool true]]).
  - apply well_formed_init.
  - reflexivity.
Defined.

Lemma sequential_requests_get_their_own_reply_witness :
  ∃ f1 w1 f2 w3,
    invoke example_REPLY_BY_CHANNEL (GetUserSettings JUndefined) init
    = (Return f1, w1)
    ∧ invoke example_REPLY_BY_CHANNEL (GetUserSettings (JString "theme"))
        (run example_REPLY_BY_CHANNEL
           ([] ++ [message "get-user-settings-reply" [JString "first"]]) w1)
      = (Return f2, w3)
    ∧ f1 ≠ f2
    ∧ promise_state
        (run example_REPLY_BY_CHANNEL
           ([] ++ [message "get-user-settings-reply" [JString "first"]]) w1)
        f1
      = Some (Fulfilled (JString "first"))
    ∧ promise_state
        (run example_REPLY_BY_CHANNEL
           ([] ++ [message "get-user-settings-reply" [JString "second"]]) w3)
        f1
      = Some (Fulfilled (JString "first"))
    ∧ promise_state
        (run example_REPLY_BY_CHANNEL
           ([] ++ [message "get-user-settings-reply" [JString "second"]]) w3)
        f2
      = Some (Fulfilled (JString "second")).
Proof.
  apply (sequential_requests_get_their_own_reply example_REPLY_BY_CHANNEL
           (GetUserSettings JUndefined) (GetUserSettings (JString "theme"))
           init [] [JString "first"] [] [JString "second"]).
  - apply well_formed_init.
  - reflexivity.
  - reflexivity.
  - reflexivity.
Defined.

Lemma settled_future_ignores_further_replies_witness :
  promise_state
    (run example_REPLY_BY_CHANNEL
       ([message "get-autostart-status-reply" [JBool true]]
        ++ [message "get-autostart-status-reply" [JNull; JString "late"]])
       (invoke example_REPLY_BY_CHANNEL AutostartTaskExist init).2) 0
  = Some (Fulfilled (JBool true)).
Proof.
  apply (settled_future_ignores_further_replies example_REPLY_BY_CHANNEL
           AutostartTaskExist init 0
           (invoke example_REPLY_BY_CHANNEL AutostartTaskExist init).2
           [message "get-autostart-status-reply" [JBool true]]
           (Fulfilled (JBool true))
           [message "get-autostart-status-reply" [JNull; JString "late"]]).
  - reflexivity.
  - reflexivity.
  - reflexivity.
Defined.

Lemma error_takes_precedence_over_result_witness :
  ∃ f w1,
    invoke example_REPLY_BY_CHANNEL AutostartTaskExist init = (Return f, w1)
    ∧ promise_state
        (run example_REPLY_BY_CHANNEL
           ([] ++ [message "get-autostart-status-reply"
                     [JBool true; JString "denied"]]) w1) f
      = Some (Rejected (JString "denied")).
Proof.
  apply (error_takes_precedence_over_result example_REPLY_BY_CHANNEL
           AutostartTaskExist init [] [JBool true; JString "denied"]).
  - apply well_formed_init.
  - reflexivity.
  - reflexivity.
  - reflexivity.
Defined.

Lemma concurrent_requests_settle_on_first_reply_witness :
  ∃ f1 w1 f2 w3,
    invoke example_REPLY_BY_CHANNEL (GetUserSettings (JString "theme")) init
    = (Return f1, w1)
    ∧ invoke example_REPLY_BY_CHANNEL (GetUserSettings (JString "bar"))
        (run example_REPLY_BY_CHANNEL [call_enableAutostart] w1)
      = (Return f2, w3)
    ∧ f1 ≠ f2
    ∧ promise_state (run example_REPLY_BY_CHANNEL [] w3) f1 = Some Pending
    ∧ promise_state (run example_REPLY_BY_CHANNEL [] w3) f2 = Some Pending
    ∧ promise_state
        (run example_REPLY_BY_CHANNEL
           ([] ++ [message "get-user-settings-reply" [JString "dark"]]) w3) f1
      = Some (Fulfilled (JString "dark"))
    ∧ promise_state
        (run example_REPLY_BY_CHANNEL
           ([] ++ [message "get-user-settings-reply" [JString "dark"]]) w3) f2
      = Some (Fulfilled (JString "dark")).
Proof.
  apply (concurrent_requests_settle_on_first_reply example_REPLY_BY_CHANNEL
           (GetUserSettings (JString "theme")) (GetUserSettings (JString "bar"))
           init [call_enableAutostart] [] [JString "dark"]).
  - apply well_formed_init.
  - reflexivity.
  - reflexivity.
  - reflexivity.
Defined.

Lemma reply_with_falsy_error_fulfils_witness :
  ∃ f w1,
    invoke example_REPLY_BY_CHANNEL AutostartTaskExist init = (Return f, w1)
    ∧ promise_state
        (run example_REPLY_BY_CHANNEL
           ([] ++ [message "get-autostart-status-reply"
                     [JNull; JBool false]]) w1) f
      = Some (Fulfilled (JBool false)).
Proof.
  apply (reply_with_falsy_error_fulfils example_REPLY_BY_CHANNEL
           AutostartTaskExist init [] [JNull; JBool false]).
  - apply well_formed_init.
  - reflexivity.
  - reflexivity.
Defined.

Lemma rejection_only_by_truthy_error_witness :
  JString "denied" = JString "denied"
  ∧ ToBoolean (JString "denied") = true
  ∧ is_present (JString "denied") = true.
Proof.
  apply (rejection_only_by_truthy_error example_REPLY_BY_CHANNEL
           (SaveUserSettings JNull) init [] [JNull; JString "denied"] 0
           (invoke example_REPLY_BY_CHANNEL (SaveUserSettings JNull) init).2
           (JString "denied")).
  - apply well_formed_init.
  - reflexivity.
  - reflexivity.
  - reflexivity.
Defined.

(** ** The entry point of the rofi window at work *)

Import Rofi.

(** Case analysis on how the calls of [Main] end, in the order they are
    made. *)
Ltac Main_cases env :=
  let cr := fresh "cr" in
  let rn := fresh "rn" in
  let rm := fresh "rm" in
  let jp := fresh "jp" in
  destruct env
    as [[[]|?] [[|?|?]|?] [[|?|?]|?] [[]|?] [?c|?] cr rm [?s|?] [?a|?] jp rn];
  unfold call_async, Main, Script_bind, perform, evaluate, await,
    call_failure;
  cbn -[elem_of last lookup];
  repeat match goal with
         | |- context [cr ?c] => destruct (cr c) as [?r|?] eqn:?
         | |- context [rm ?r] => destruct (rm r) as [[]|?] eqn:?
         | |- context [jp ?s ?a] => destruct (jp s a) as [?el|?] eqn:?
         | |- context [rn ?r] => destruct (rn r) as [[]|?] eqn:?
         end;
  cbn -[elem_of last lookup].

(** [Main] makes its calls in the order of the source, each at most once,
    and hands the container it got to [createRoot] and the root it got to
    [render]. *)
Theorem Main_calls_in_source_order env :
  ∃ c r,
    (call_async (Main env)).2
    `prefix_of` [wrapConsole_called; declareDocumentAsLayeredHitbox_called;
                 initStore_called; registerDocumentEvents_called;
                 getRootContainer_called; createRoot_called c;
                 render_called r]
    ∧ (createRoot_called c ∈ (call_async (Main env)).2 →
       getRootContainer env = Return c)
    ∧ (render_called r ∈ (call_async (Main env)).2 →
       createRoot env c = Return r).
Proof.
  exists (match getRootContainer env with Return c => c | Throw _ => 0 end).
  exists (match getRootContainer env with
          | Return c => match createRoot env c with
                        | Return r => r
                        | Throw _ => 0
                        end
          | Throw _ => 0
          end).
  Main_cases env;
    (split; [eexists; reflexivity|]);
    split; intros Hin; repeat (apply elem_of_cons in Hin as [Hin|Hin]);
    try done; by apply elem_of_nil in Hin.
Qed.

(** The window is rendered exactly when everything before went well: the
    console was wrapped, both awaited promises were fulfilled, the document
    events were registered, the container and the root were obtained, the
    [render] method was found on the root, and the store was read and the
    two elements were created without an exception. *)
Theorem Main_renders_only_when_ready env r :
  render_called r ∈ (call_async (Main env)).2
  ↔ wrapConsole env = Return ()
    ∧ (∃ v, declareDocumentAsLayeredHitbox env = Return (Fulfilled v))
    ∧ (∃ v, initStore env = Return (Fulfilled v))
    ∧ registerDocumentEvents env = Return ()
    ∧ ∃ c, getRootContainer env = Return c
           ∧ createRoot env c = Return r
           ∧ render_method env r = Return ()
           ∧ ∃ s a el, store env = Return s
                       ∧ jsx_App env = Return a
                       ∧ jsx_Provider env s a = Return el.
Proof.
  Main_cases env.
  all: rewrite list_elem_of_In; cbn.
  all: split.
  all: try (intros Hin; decompose [or] Hin; done).
  all: try (intros (? & [? ?] & [? ?] & ? & ? & ? & ? & ? & ? & ? & ? & ?
                    & ? & ?);
            simplify_eq; congruence).
  all: try (intros Hin; decompose [or] Hin; try done; simplify_eq;
            repeat split; eauto 10; fail).
  all: try (intros (_ & _ & _ & _ & c' & Hc & Hr & _); injection Hc as <-;
            rewrite Hr in *; simplify_eq; tauto).
  all: intros Hin; decompose [or] Hin; try done; simplify_eq; congruence.
Qed.

(** [Main] stops at the first failure. A call that fails is the last call
    made. The promise of [Main] is rejected exactly when the last call made
    failed, with the error of that call, or when the last call made is that
    of [createRoot], which returned, and the evaluation of the receiver and
    of the argument of [render] threw: the lookup of [.render], the read of
    [store] or the creation of one of the two elements; the reason is then
    that exception. *)
Theorem Main_stops_at_first_failure env :
  (∀ i c, (call_async (Main env)).2 !! i = Some c →
          is_Some (call_failure env c) →
          S i = length (call_async (Main env)).2)
  ∧ (∀ e, (call_async (Main env)).1 = Rejected e
          ↔ (∃ c, last (call_async (Main env)).2 = Some c
                  ∧ call_failure env c = Some e)
            ∨ (∃ c r,
                 last (call_async (Main env)).2 = Some (createRoot_called c)
                 ∧ createRoot env c = Return r
                 ∧ (render_method env r = Throw e
                    ∨ render_method env r = Return ()
                      ∧ (store env = Throw e
                         ∨ ∃ s, store env = Return s
                                ∧ (jsx_App env = Throw e
                                   ∨ ∃ a, jsx_App env = Return a
                                          ∧ jsx_Provider env s a
                                            = Throw e))))).
Proof.
  Main_cases env.
  all: split.
  all: try (intros i c' Hi [e' He'];
            do 7 (try (destruct i as [|i];
                       [cbn in Hi; simplify_eq; cbn in He';
                        repeat match goal with
                               | H : _ = Return _ |- _ => rewrite H in He'
                               | H : _ = Throw _ |- _ => rewrite H in He'
                               end;
                        by simplify_eq|]));
            apply lookup_lt_Some in Hi; cbn in Hi; lia).
  all: intros e'; split.
  all: try (intros Hst; discriminate Hst).
  all: try (intros ?; simplify_eq; left; eexists; split; [reflexivity|];
            cbn;
            repeat match goal with
                   | H : _ = _ |- _ => rewrite H
                   end; done).
  all: try (intros ?; simplify_eq; right; eexists _, _;
            split; [reflexivity|]; split; [eassumption|]; eauto 12; fail).
  all: intros [(c' & Hl & Hf) | (c' & r' & Hl & Hcr & Hop)].
  all: try (cbn in Hl; simplify_eq; try (cbn in Hf);
            repeat match goal with
                   | H : _ = Return _ |- _ => rewrite H in Hf
                   | H : _ = Throw _ |- _ => rewrite H in Hf
                   end;
            by simplify_eq).
  all: try (cbn in Hl; simplify_eq; fail).
  all: cbn in Hl; simplify_eq;
    destruct Hop as [?|[? [?|[? [? [?|[? [? ?]]]]]]]]; simplify_eq;
    congruence.
Qed.

(** The promise of [Main] stays pending for ever exactly when one of the two
    awaited promises never settles: that of
    [declareDocumentAsLayeredHitbox], or, once this one is fulfilled, that
    of [initStore]. *)
Theorem Main_hangs_only_on_unsettled_await env :
  (call_async (Main env)).1 = Pending
  ↔ wrapConsole env = Return ()
    ∧ (declareDocumentAsLayeredHitbox env = Return Pending
       ∨ (∃ v, declareDocumentAsLayeredHitbox env = Return (Fulfilled v))
         ∧ initStore env = Return Pending).
Proof.
  Main_cases env.
  all: split.
  all: try (intros Hst; discriminate Hst).
  all: try (intros _; split; [done|]; eauto; fail).
  all: intros (? & [?|[[? ?] ?]]); by simplify_eq.
Qed.

(** The promise of [Main] is fulfilled, with [undefined], exactly when
    [render] was called and returned. *)
Theorem Main_fulfilled_when_rendered env v :
  (call_async (Main env)).1 = Fulfilled v
  ↔ v = JUndefined
    ∧ ∃ r, render_called r ∈ (call_async (Main env)).2
           ∧ render env r = Return ().
Proof.
  Main_cases env.
  all: setoid_rewrite list_elem_of_In; cbn.
  all: split.
  all: try (intros Hst; discriminate Hst).
  all: try (intros (-> & r' & Hin & Hr);
            first [done
                  |decompose [or] Hin; try done; simplify_eq; congruence]).
  all: intros ?; simplify_eq; split; [done|]; eexists; split; [|eassumption];
    tauto.
Qed.
